(** * portrange: TCP/UDP port ranges and their interval algebra

    A shallow embedding of [ports.go].  The Go package manipulates
    [*PortRange] values: the read-only methods ([Validate], [Overlaps],
    [Adjacent], [EntirelyLessThan]) only inspect the fields of the two
    structs they are given, whereas [Overlap] and [MergeWith] overwrite the
    fields of their argument in place and [New] allocates a struct.

    - [uint16] and [uint8] fields are integers in [Z]; the one arithmetic
      operation of the package, [maxPort+1] in [Adjacent], is written with
      its wrap-around modulo [2^16].
    - A Go [error] is [option err], [None] being [nil].
    - The heap is a finite map from locations to structs; a method call on
      a pointer that is not allocated (Go: a nil dereference) panics, which
      is the [None] of the [Go] monad. *)

From Stdlib Require Import ZArith Lia Bool.
From stdpp Require Import base option gmap.

#[local] Open Scope Z_scope.

(** ** Constants and errors *)

Definition ProtoInvalid : Z := 0.
Definition ProtoTcp : Z := 6.
Definition ProtoUdp : Z := 17.

Inductive err : Set :=
| ErrBadRange
| ErrBadProto
| ErrDisjointRanges.

(** [nil] is [None]. *)
Definition error : Set := option err.

(** ** Machine integers *)

Definition uint16_modulus : Z := 65536.
Definition uint8_modulus : Z := 256.

Definition is_uint16 (x : Z) : Prop := 0 <= x < uint16_modulus.
Definition is_uint8 (x : Z) : Prop := 0 <= x < uint8_modulus.

(** Addition on [uint16] as Go computes it. *)
Definition uint16_add (a b : Z) : Z := (a + b) mod uint16_modulus.

(** ** The struct *)

Record PortRange : Set := mkPortRange {
  minPort : Z;
  maxPort : Z;
  proto : Z
}.

(** The values a Go [PortRange] can hold. *)
Definition wf_PortRange (r : PortRange) : Prop :=
  is_uint16 (minPort r) /\ is_uint16 (maxPort r) /\ is_uint8 (proto r).

(** ** Read-only methods, on the structs the two pointers refer to *)

Definition Validate (p : PortRange) : error :=
  if (minPort p =? 0) || (maxPort p =? 0) then Some ErrBadRange
  else if minPort p >? maxPort p then Some ErrBadRange
  else if negb (proto p =? ProtoTcp) && negb (proto p =? ProtoUdp)
       then Some ErrBadProto
  else None.

Definition Overlaps (p o : PortRange) : bool :=
  if negb (proto p =? proto o) then false
  else if minPort p >? maxPort o then false
  else if minPort o >? maxPort p then false
  else true.

Definition Adjacent (p o : PortRange) : bool :=
  if negb (proto p =? proto o) then false
  else if Overlaps p o then false
  else if uint16_add (maxPort p) 1 =? minPort o then true
  else if uint16_add (maxPort o) 1 =? minPort p then true
  else false.

Definition EntirelyLessThan (p o : PortRange) : bool :=
  if proto p <? proto o then true
  else if Overlaps p o then false
  else if maxPort p <? minPort o then true
  else false.

(** ** The heap and the monad of Go computations *)

Definition loc : Set := positive.

Abbreviation heap := (gmap loc PortRange).

(** A computation reads and writes the heap and either returns a value or
    panics ([None]). *)
Definition Go (A : Type) : Type := heap -> option (A * heap).

Definition ret {A} (a : A) : Go A := fun h => Some (a, h).

Definition bind {A B} (m : Go A) (k : A -> Go B) : Go B :=
  fun h => match m h with
           | Some (a, h') => k a h'
           | None => None
           end.

Declare Scope go_scope.
Delimit Scope go_scope with go.
Notation "x <- m ;; k" := (bind m (fun x => k))
  (at level 100, m at next level, right associativity) : go_scope.
Notation "m ;;; k" := (bind m (fun _ => k))
  (at level 100, right associativity) : go_scope.

(** [*p] *)
Definition deref (p : loc) : Go PortRange :=
  fun h => match h !! p with
           | Some v => Some (v, h)
           | None => None
           end.

(** [p.f], for a field [f]. *)
Definition load {A} (f : PortRange -> A) (p : loc) : Go A :=
  fun h => match h !! p with
           | Some v => Some (f v, h)
           | None => None
           end.

(** [o.minPort = x] and [o.maxPort = x]. *)
Definition store_minPort (o : loc) (x : Z) : Go unit :=
  fun h => match h !! o with
           | Some v => Some (tt, <[o := mkPortRange x (maxPort v) (proto v)]> h)
           | None => None
           end.

Definition store_maxPort (o : loc) (x : Z) : Go unit :=
  fun h => match h !! o with
           | Some v => Some (tt, <[o := mkPortRange (minPort v) x (proto v)]> h)
           | None => None
           end.

(** [&PortRange{...}]: a location that is not in use. *)
Definition alloc (v : PortRange) : Go loc :=
  fun h => let l := fresh (dom h) in Some (l, <[l := v]> h).

(** A read-only method called through pointers. *)
Definition call1 {A} (f : PortRange -> A) (p : loc) : Go A :=
  (P <- deref p ;; ret (f P))%go.

Definition call2 {A} (f : PortRange -> PortRange -> A) (p o : loc) : Go A :=
  (P <- deref p ;; O <- deref o ;; ret (f P O))%go.

(** ** Constructor and mutators *)

(** The result of [New] is a pair of a pointer, [None] being [nil], and an
    error.  When [Validate] fails the struct that was allocated stays in
    the heap of the model, with no pointer to it returned. *)
Definition New (minPort maxPort : Z) (proto : Z) : Go (option loc * error) :=
  (p <- alloc (mkPortRange minPort maxPort proto) ;;
   e <- call1 Validate p ;;
   match e with
   | Some _ => ret (None, e)
   | None => ret (Some p, None)
   end)%go.

Definition Overlap (p o : loc) : Go error :=
  (ov <- call2 Overlaps p o ;;
   if negb ov then ret (Some ErrDisjointRanges)
   else
     pmin <- load minPort p ;;
     omin <- load minPort o ;;
     let minPort' := if omin >? pmin then omin else pmin in
     pmax <- load maxPort p ;;
     omax <- load maxPort o ;;
     let maxPort' := if omax <? pmax then omax else pmax in
     store_minPort o minPort' ;;;
     store_maxPort o maxPort' ;;;
     ret None)%go.

Definition MergeWith (p o : loc) : Go error :=
  (ov <- call2 Overlaps p o ;;
   mergeable <- (if ov then ret true else call2 Adjacent p o) ;;
   if mergeable : bool then
     omin <- load minPort o ;;
     pmin <- load minPort p ;;
     (if omin >? pmin then store_minPort o pmin else ret tt) ;;;
     omax <- load maxPort o ;;
     pmax <- load maxPort p ;;
     (if omax <? pmax then store_maxPort o pmax else ret tt) ;;;
     ret None
   else ret (Some ErrDisjointRanges))%go.

(** ** What the mutators leave in their argument *)

(** The intersection that [Overlap] leaves in its argument, and the union
    that [MergeWith] leaves there. *)
Definition intersection (S D : PortRange) : PortRange :=
  mkPortRange (Z.max (minPort S) (minPort D))
              (Z.min (maxPort S) (maxPort D))
              (proto D).

Definition union (S D : PortRange) : PortRange :=
  mkPortRange (Z.min (minPort S) (minPort D))
              (Z.max (maxPort S) (maxPort D))
              (proto D).

(** ** Sample structs and heaps *)

Definition tcp (lo hi : Z) : PortRange := mkPortRange lo hi ProtoTcp.
Definition udp (lo hi : Z) : PortRange := mkPortRange lo hi ProtoUdp.

(** The heap of a test case: source at location 1, destination at 2. *)
Definition heap2 (s d : PortRange) : heap :=
  <[2%positive := d]> (<[1%positive := s]> ∅).

(** ** The ports of a range, and clients of the package *)

(** The ports a range stands for: those between its two bounds, both
    included. *)
Definition has_port (r : PortRange) (x : Z) : Prop :=
  minPort r <= x <= maxPort r.

(** A client's call of one of the two mutators, and a client that makes
    such calls one after the other and collects the errors. *)
Inductive call : Set :=
| CallOverlap (p o : loc)
| CallMergeWith (p o : loc).

Definition do_call (c : call) : Go error :=
  match c with
  | CallOverlap p o => Overlap p o
  | CallMergeWith p o => MergeWith p o
  end.

Fixpoint do_calls (cs : list call) : Go (list error) :=
  match cs with
  | [] => ret []
  | c :: cs' => (e <- do_call c ;; es <- do_calls cs' ;; ret (e :: es))%go
  end.

(** Both pointers of a call refer to structs of the heap. *)
Definition allocated (h : heap) (c : call) : Prop :=
  match c with
  | CallOverlap p o | CallMergeWith p o => is_Some (h !! p) /\ is_Some (h !! o)
  end.

(** Every struct of the heap passes [Validate]. *)
Definition heap_valid (h : heap) : Prop :=
  forall (l : loc) (v : PortRange), h !! l = Some v -> Validate v = None.

(** ** Proof automation *)

(** Turns every integer comparison of the goal into a case distinction on
    the order of its operands. *)
Ltac order_cases :=
  repeat match goal with
         | |- context [?a >? ?b] => rewrite (Z.gtb_ltb a b)
         | |- context [?a =? ?b] => destruct (Z.eqb_spec a b)
         | |- context [?a <? ?b] => destruct (Z.ltb_spec a b)
         end;
  simpl.

Ltac order_solve :=
  order_cases; try reflexivity; try discriminate; try lia; try tauto.

(** ** Concrete runs, from the package's tests *)

Example test_Validate_ok : Validate (tcp 16 16) = None.
Proof. reflexivity. Qed.

Example test_Validate_port0 : Validate (udp 0 16) = Some ErrBadRange.
Proof. reflexivity. Qed.

Example test_Validate_proto :
  Validate (mkPortRange 16 16 ProtoInvalid) = Some ErrBadProto.
Proof. reflexivity. Qed.

Example test_New_tcp_one_port :
  New 16 16 ProtoTcp ∅
  = Some ((Some 1%positive, None), <[1%positive := tcp 16 16]> ∅).
Proof. vm_compute. reflexivity. Qed.

Example test_New_port0 :
  New 0 16 ProtoTcp ∅
  = Some ((None, Some ErrBadRange), <[1%positive := tcp 0 16]> ∅).
Proof. vm_compute. reflexivity. Qed.

Example test_New_port0_and_bad_proto :
  fst <$> New 0 16 99 ∅ = Some (None, Some ErrBadRange).
Proof. vm_compute. reflexivity. Qed.

Example test_Adjacent_non_overlap :
  Overlaps (tcp 16 20) (tcp 21 26) = false /\
  Adjacent (tcp 16 20) (tcp 21 26) = true /\
  Adjacent (tcp 21 26) (tcp 16 20) = true.
Proof. vm_compute. auto. Qed.

Example test_Adjacent_disjoint : Adjacent (tcp 16 17) (tcp 20 27) = false.
Proof. reflexivity. Qed.

Example test_EntirelyLessThan_proto :
  EntirelyLessThan (tcp 50 55) (udp 18 21) = true.
Proof. reflexivity. Qed.

Example test_Overlap_tcp :
  (Overlap 1%positive 2%positive (heap2 (tcp 17 20) (tcp 18 21)))
  = Some (None, heap2 (tcp 17 20) (tcp 18 20)).
Proof. vm_compute. reflexivity. Qed.

Example test_MergeWith_udp_adjacent :
  (MergeWith 1%positive 2%positive (heap2 (udp 17 18) (udp 19 21)))
  = Some (None, heap2 (udp 17 18) (udp 17 21)).
Proof. vm_compute. reflexivity. Qed.

Example test_MergeWith_disparate :
  (MergeWith 1%positive 2%positive (heap2 (udp 17 18) (udp 20 21)))
  = Some (Some ErrDisjointRanges, heap2 (udp 17 18) (udp 20 21)).
Proof. vm_compute. reflexivity. Qed.

(** Receiver and argument may be one struct. *)
Example test_Overlap_alias :
  (Overlap 2%positive 2%positive (heap2 (tcp 17 20) (tcp 18 21)))
  = Some (None, heap2 (tcp 17 20) (tcp 18 21)).
Proof. vm_compute. reflexivity. Qed.

Example test_MergeWith_alias :
  (MergeWith 2%positive 2%positive (heap2 (tcp 17 20) (tcp 18 21)))
  = Some (None, heap2 (tcp 17 20) (tcp 18 21)).
Proof. vm_compute. reflexivity. Qed.

(** A pointer that refers to no struct. *)
Example test_Overlap_nil :
  Overlap 3%positive 2%positive (heap2 (tcp 17 20) (tcp 18 21)) = None.
Proof. vm_compute. reflexivity. Qed.

(** * Properties of the read-only methods *)

Section Predicates.

Variables A B : PortRange.

Lemma Validate_nil_iff :
  Validate A = None <->
  minPort A <> 0 /\ maxPort A <> 0 /\ minPort A <= maxPort A /\
  (proto A = ProtoTcp \/ proto A = ProtoUdp).
Proof.
  unfold Validate, ProtoTcp, ProtoUdp. order_cases; split; intros ?;
    try discriminate; try reflexivity; lia.
Qed.

Lemma Validate_BadRange_iff :
  Validate A = Some ErrBadRange <->
  minPort A = 0 \/ maxPort A = 0 \/ minPort A > maxPort A.
Proof.
  unfold Validate, ProtoTcp, ProtoUdp. order_cases; split; intros ?;
    try discriminate; try reflexivity; lia.
Qed.

Lemma Validate_BadProto_iff :
  Validate A = Some ErrBadProto <->
  ~ (minPort A = 0 \/ maxPort A = 0 \/ minPort A > maxPort A) /\
  proto A <> ProtoTcp /\ proto A <> ProtoUdp.
Proof.
  unfold Validate, ProtoTcp, ProtoUdp. order_cases; split; intros ?;
    try discriminate; try reflexivity; lia.
Qed.

Lemma Overlaps_true_iff :
  Overlaps A B = true <->
  proto A = proto B /\ ~ minPort A > maxPort B /\ ~ minPort B > maxPort A.
Proof.
  unfold Overlaps. order_cases; split; intros ?;
    try discriminate; try reflexivity; lia.
Qed.

Lemma Overlaps_false_iff :
  Overlaps A B = false <->
  proto A <> proto B \/ minPort A > maxPort B \/ minPort B > maxPort A.
Proof.
  unfold Overlaps. order_cases; split; intros ?;
    try discriminate; try reflexivity; lia.
Qed.

Lemma Overlaps_sym : Overlaps A B = Overlaps B A.
Proof. unfold Overlaps. order_solve. Qed.

Lemma Adjacent_sym : Adjacent A B = Adjacent B A.
Proof.
  unfold Adjacent. rewrite Overlaps_sym.
  destruct (Overlaps B A); order_solve.
Qed.

Lemma Adjacent_not_Overlaps : Adjacent A B = true -> Overlaps A B = false.
Proof.
  unfold Adjacent. destruct (Overlaps A B); [|reflexivity].
  destruct (negb (proto A =? proto B)); discriminate.
Qed.

Lemma Adjacent_same_proto : Adjacent A B = true -> proto A = proto B.
Proof.
  unfold Adjacent. destruct (Z.eqb_spec (proto A) (proto B)); simpl;
    [trivial | discriminate].
Qed.

End Predicates.

(** The successor of a port, in [uint16], is the exact successor except at
    the top of the range, where it is [0]. *)
Lemma uint16_add_1 (x : Z) :
  is_uint16 x ->
  uint16_add x 1 = if x =? 65535 then 0 else x + 1.
Proof.
  unfold is_uint16, uint16_add, uint16_modulus. intros Hx.
  destruct (Z.eqb_spec x 65535) as [->|Hne]; [reflexivity|].
  apply Z.mod_small. lia.
Qed.

(** Between ranges whose lower bound is not the reserved port [0], the
    wrap-around of [maxPort+1] is harmless: [Adjacent] is the exact
    "one apart" relation. *)
Lemma Adjacent_exact_nonzero (A B : PortRange) :
  wf_PortRange A -> wf_PortRange B ->
  minPort A <> 0 -> minPort B <> 0 ->
  Adjacent A B = true <->
  proto A = proto B /\ Overlaps A B = false /\
  (maxPort A + 1 = minPort B \/ maxPort B + 1 = minPort A).
Proof.
  intros (HA1 & HA2 & _) (HB1 & HB2 & _) HA0 HB0.
  unfold Adjacent. rewrite !uint16_add_1 by assumption.
  unfold is_uint16, uint16_modulus in *.
  destruct (Z.eqb_spec (maxPort A) 65535), (Z.eqb_spec (maxPort B) 65535);
    destruct (Overlaps A B); order_cases; split; intros ?;
    try discriminate; try reflexivity; try lia;
    intuition (try discriminate; lia).
Qed.

(** A range that ends at port 65535 is not found adjacent-above a range
    that starts at a non-zero port. *)
Lemma Adjacent_top_nonzero (A B : PortRange) :
  is_uint16 (minPort B) ->
  maxPort A = 65535 -> minPort B <> 0 ->
  (uint16_add (maxPort A) 1 =? minPort B) = false.
Proof.
  intros HB -> HB0. apply Z.eqb_neq. vm_compute uint16_add. lia.
Qed.

(** * Running computations on a heap *)

Section Run.

Context {X Y : Type}.
Variable h : heap.

Lemma bind_ret (x : X) (k : X -> Go Y) : bind (ret x) k h = k x h.
Proof. reflexivity. Qed.

Lemma bind_deref (p : loc) (v : PortRange) (k : PortRange -> Go Y) :
  h !! p = Some v -> bind (deref p) k h = k v h.
Proof. intros Hp. unfold bind, deref. now rewrite Hp. Qed.

Lemma bind_load (f : PortRange -> X) (p : loc) (v : PortRange)
      (k : X -> Go Y) :
  h !! p = Some v -> bind (load f p) k h = k (f v) h.
Proof. intros Hp. unfold bind, load. now rewrite Hp. Qed.

Lemma bind_store_minPort (o : loc) (x : Z) (v : PortRange)
      (k : unit -> Go Y) :
  h !! o = Some v ->
  bind (store_minPort o x) k h
  = k tt (<[o := mkPortRange x (maxPort v) (proto v)]> h).
Proof. intros Ho. unfold bind, store_minPort. now rewrite Ho. Qed.

Lemma bind_store_maxPort (o : loc) (x : Z) (v : PortRange)
      (k : unit -> Go Y) :
  h !! o = Some v ->
  bind (store_maxPort o x) k h
  = k tt (<[o := mkPortRange (minPort v) x (proto v)]> h).
Proof. intros Ho. unfold bind, store_maxPort. now rewrite Ho. Qed.

Lemma bind_call1 (f : PortRange -> X) (p : loc) (P : PortRange)
      (k : X -> Go Y) :
  h !! p = Some P -> bind (call1 f p) k h = k (f P) h.
Proof. intros Hp. unfold call1, bind, deref, ret. now rewrite Hp. Qed.

Lemma bind_call2 (f : PortRange -> PortRange -> X) (p o : loc)
      (P O : PortRange) (k : X -> Go Y) :
  h !! p = Some P -> h !! o = Some O ->
  bind (call2 f p o) k h = k (f P O) h.
Proof.
  intros Hp Ho. unfold call2, bind, deref, ret. now rewrite Hp, Ho.
Qed.

End Run.

Lemma call1_run {X} (f : PortRange -> X) (p : loc) (P : PortRange) (h : heap) :
  h !! p = Some P -> call1 f p h = Some (f P, h).
Proof. intros Hp. unfold call1, bind, deref, ret. now rewrite Hp. Qed.

Lemma call2_run {X} (f : PortRange -> PortRange -> X) (p o : loc)
      (P O : PortRange) (h : heap) :
  h !! p = Some P -> h !! o = Some O -> call2 f p o h = Some (f P O, h).
Proof. intros Hp Ho. unfold call2, bind, deref, ret. now rewrite Hp, Ho. Qed.

Lemma gtb_max (a b : Z) : (if b >? a then b else a) = Z.max a b.
Proof. rewrite Z.gtb_ltb. destruct (Z.ltb_spec a b); lia. Qed.

Lemma ltb_min (a b : Z) : (if b <? a then b else a) = Z.min a b.
Proof. destruct (Z.ltb_spec b a); lia. Qed.

Lemma intersection_self (S : PortRange) : intersection S S = S.
Proof.
  destruct S as [lo hi pr]. unfold intersection; simpl.
  now rewrite Z.max_id, Z.min_id.
Qed.

Lemma union_self (S : PortRange) : union S S = S.
Proof.
  destruct S as [lo hi pr]. unfold union; simpl.
  now rewrite Z.max_id, Z.min_id.
Qed.

Section Mutators.

Variable h : heap.
Variables p o : loc.
Variables S D : PortRange.
Hypothesis Hp : h !! p = Some S.
Hypothesis Ho : h !! o = Some D.

(** When receiver and argument are one struct, they hold one value. *)
Lemma alias_same_value : p = o -> S = D.
Proof. intros ->. congruence. Qed.

Lemma Overlap_run :
  Overlap p o h =
  if Overlaps S D then Some (None, <[o := intersection S D]> h)
  else Some (Some ErrDisjointRanges, h).
Proof.
  unfold Overlap. rewrite (bind_call2 h Overlaps p o S D _ Hp Ho).
  destruct (Overlaps S D); simpl; [|reflexivity].
  rewrite (bind_load h minPort p S _ Hp), (bind_load h minPort o D _ Ho).
  rewrite (bind_load h maxPort p S _ Hp), (bind_load h maxPort o D _ Ho).
  rewrite (bind_store_minPort h o _ D _ Ho).
  erewrite bind_store_maxPort by apply lookup_insert_eq.
  unfold ret, intersection; simpl.
  now rewrite insert_insert_eq, gtb_max, ltb_min.
Qed.

Lemma union_by_cases :
  union S D =
  mkPortRange (if minPort D >? minPort S then minPort S else minPort D)
              (if maxPort D <? maxPort S then maxPort S else maxPort D)
              (proto D).
Proof.
  unfold union. rewrite Z.gtb_ltb.
  destruct (Z.ltb_spec (minPort S) (minPort D)),
           (Z.ltb_spec (maxPort D) (maxPort S)); f_equal; lia.
Qed.

Lemma MergeWith_run :
  MergeWith p o h =
  if Overlaps S D || Adjacent S D then Some (None, <[o := union S D]> h)
  else Some (Some ErrDisjointRanges, h).
Proof.
  unfold MergeWith. rewrite (bind_call2 h Overlaps p o S D _ Hp Ho).
  assert (Hm : forall k : bool -> Go error,
             bind (if Overlaps S D then ret true else call2 Adjacent p o) k h
             = k (Overlaps S D || Adjacent S D) h).
  { intros k. destruct (Overlaps S D); simpl; [reflexivity|].
    now apply bind_call2. }
  rewrite Hm. destruct (Overlaps S D || Adjacent S D); [|reflexivity].
  rewrite (bind_load h minPort o D _ Ho), (bind_load h minPort p S _ Hp).
  rewrite union_by_cases.
  destruct (minPort D >? minPort S) eqn:Emin.
  - (* [o.minPort = p.minPort] is executed: the two structs differ. *)
    assert (Hne : o <> p).
    { intros ->. assert (S = D) by congruence. subst D.
      rewrite Z.gtb_ltb, Z.ltb_irrefl in Emin. discriminate. }
    rewrite (bind_store_minPort h o _ D _ Ho).
    erewrite bind_load by apply lookup_insert_eq.
    erewrite bind_load by (rewrite lookup_insert_ne by exact Hne; exact Hp).
    cbn [minPort maxPort proto]. destruct (maxPort D <? maxPort S).
    + erewrite bind_store_maxPort by apply lookup_insert_eq.
      unfold ret; cbn [minPort maxPort proto]. now rewrite insert_insert_eq.
    + rewrite bind_ret. reflexivity.
  - rewrite bind_ret.
    rewrite (bind_load h maxPort o D _ Ho), (bind_load h maxPort p S _ Hp).
    destruct (maxPort D <? maxPort S).
    + rewrite (bind_store_maxPort h o _ D _ Ho). reflexivity.
    + rewrite bind_ret. unfold ret.
      destruct D as [lo hi pr]; simpl. now rewrite insert_id.
Qed.

End Mutators.

(** [alloc] hands out a location that was free. *)
Lemma fresh_loc_free (h : heap) : h !! fresh (dom h) = None.
Proof. apply not_elem_of_dom. apply is_fresh. Qed.

Lemma New_run (minPort maxPort proto : Z) (h : heap) :
  let r := mkPortRange minPort maxPort proto in
  let l := fresh (dom h) in
  New minPort maxPort proto h =
  Some (match Validate r with
        | Some e => (None, Some e)
        | None => (Some l, None)
        end, <[l := r]> h).
Proof.
  intros r l. unfold New, alloc.
  change (bind _ _ h) with
    (bind (call1 Validate l)
          (fun e => match e with
                    | Some _ => ret (None, e)
                    | None => ret (Some l, None)
                    end) (<[l := r]> h)).
  erewrite bind_call1 by apply lookup_insert_eq.
  now destruct (Validate r).
Qed.

(** * The claims *)

(** C1.  [New] succeeds exactly when both ports are non-zero, [minPort <=
    maxPort] and the protocol is 6 or 17.  It fails with [ErrBadRange]
    exactly when the bounds are invalid, whatever the protocol, and with
    [ErrBadProto] exactly when the bounds are valid and the protocol is
    not.  [Validate], on the struct [New] allocated or on any struct with
    these fields, returns the same error and leaves the heap alone. *)
Theorem New_Validate_spec (minPort maxPort proto : Z) (h : heap) :
  let r := mkPortRange minPort maxPort proto in
  let bad_bounds := minPort = 0 \/ maxPort = 0 \/ minPort > maxPort in
  let good_proto := proto = 6 \/ proto = 17 in
  exists (l : loc) (res : option loc) (e : error),
    h !! l = None /\
    New minPort maxPort proto h = Some ((res, e), <[l := r]> h) /\
    (res = Some l /\ e = None <->
     minPort <> 0 /\ maxPort <> 0 /\ minPort <= maxPort /\ good_proto) /\
    (res = None /\ e = Some ErrBadRange <-> bad_bounds) /\
    (res = None /\ e = Some ErrBadProto <-> ~ bad_bounds /\ ~ good_proto) /\
    Validate r = e /\
    (forall (h0 : heap) (p : loc),
        h0 !! p = Some r -> call1 Validate p h0 = Some (e, h0)).
Proof.
  intros r bad_bounds good_proto.
  pose proof (Validate_nil_iff r) as Hnil.
  pose proof (Validate_BadRange_iff r) as Hrange.
  pose proof (Validate_BadProto_iff r) as Hproto.
  unfold ProtoTcp, ProtoUdp in *. simpl in Hnil, Hrange, Hproto.
  exists (fresh (dom h)),
         (match Validate r with Some _ => None | None => Some (fresh (dom h)) end),
         (Validate r).
  split; [apply fresh_loc_free|].
  split; [rewrite New_run; fold r; now destruct (Validate r)|].
  subst bad_bounds good_proto.
  assert (Hcall : forall (h0 : heap) (p : loc),
             h0 !! p = Some r -> call1 Validate p h0 = Some (Validate r, h0))
    by (intros; now apply call1_run).
  destruct (Validate r) as [[| |]|] eqn:E;
    (repeat split; try exact Hcall);
    try (intros [? ?]; discriminate);
    try (intros; exfalso; intuition (discriminate || lia));
    intuition (try discriminate; try lia).
Qed.

(** C2.  [S.Overlap(D)]: when [S.Overlaps(D)] is false it returns
    [ErrDisjointRanges] and the heap, hence [D] and [S], is as before; when
    [S.Overlaps(D)] is true it returns [nil] and only [D] is overwritten,
    with lower bound the larger of the two lower bounds, upper bound the
    smaller of the two upper bounds and its protocol kept; [S] reads as
    before, also when [S] and [D] are one struct. *)
Theorem Overlap_spec (h : heap) (p o : loc) (S D : PortRange) :
  h !! p = Some S -> h !! o = Some D ->
  (Overlaps S D = false ->
   Overlap p o h = Some (Some ErrDisjointRanges, h)) /\
  (Overlaps S D = true ->
   exists D' : PortRange,
     Overlap p o h = Some (None, <[o := D']> h) /\
     minPort D' = Z.max (minPort S) (minPort D) /\
     maxPort D' = Z.min (maxPort S) (maxPort D) /\
     proto D' = proto D /\
     <[o := D']> h !! p = Some S).
Proof.
  intros Hp Ho. rewrite (Overlap_run h p o S D Hp Ho).
  split; intros ->; [reflexivity|].
  exists (intersection S D). repeat split.
  destruct (decide (o = p)) as [->|Hne].
  - rewrite lookup_insert_eq. f_equal.
    rewrite <- (alias_same_value h p p S D Hp Ho eq_refl).
    apply intersection_self.
  - now rewrite lookup_insert_ne.
Qed.

Lemma Overlap_spec_witness :
  let h := heap2 (tcp 17 20) (tcp 18 21) in
  h !! 1%positive = Some (tcp 17 20) /\ h !! 2%positive = Some (tcp 18 21) /\
  Overlaps (tcp 17 20) (tcp 18 21) = true /\
  exists D' : PortRange,
    Overlap 1%positive 2%positive h = Some (None, <[2%positive := D']> h) /\
    minPort D' = Z.max 17 18 /\ maxPort D' = Z.min 20 21 /\
    proto D' = ProtoTcp /\
    <[2%positive := D']> h !! 1%positive = Some (tcp 17 20).
Proof.
  intros h. split; [reflexivity|]. split; [reflexivity|].
  split; [reflexivity|].
  apply (Overlap_spec h 1%positive 2%positive (tcp 17 20) (tcp 18 21));
    reflexivity.
Defined.

(** C3.  [S.MergeWith(D)]: when the ranges neither overlap nor are adjacent
    it returns [ErrDisjointRanges] and the heap is as before; when they
    overlap or are adjacent it returns [nil] and only [D] is overwritten,
    with lower bound the smaller of the two lower bounds, upper bound the
    larger of the two upper bounds and its protocol kept; [S] reads as
    before, also when [S] and [D] are one struct. *)
Theorem MergeWith_spec (h : heap) (p o : loc) (S D : PortRange) :
  h !! p = Some S -> h !! o = Some D ->
  (Overlaps S D = false /\ Adjacent S D = false ->
   MergeWith p o h = Some (Some ErrDisjointRanges, h)) /\
  (Overlaps S D = true \/ Adjacent S D = true ->
   exists D' : PortRange,
     MergeWith p o h = Some (None, <[o := D']> h) /\
     minPort D' = Z.min (minPort S) (minPort D) /\
     maxPort D' = Z.max (maxPort S) (maxPort D) /\
     proto D' = proto D /\
     <[o := D']> h !! p = Some S).
Proof.
  intros Hp Ho. rewrite (MergeWith_run h p o S D Hp Ho).
  split.
  - intros [-> ->]. reflexivity.
  - intros Hm.
    assert (Overlaps S D || Adjacent S D = true) as ->
        by (apply orb_true_iff; exact Hm).
    exists (union S D). repeat split.
    destruct (decide (o = p)) as [->|Hne].
    + rewrite lookup_insert_eq. f_equal.
      rewrite <- (alias_same_value h p p S D Hp Ho eq_refl).
      apply union_self.
    + now rewrite lookup_insert_ne.
Qed.

Lemma MergeWith_spec_witness :
  let h := heap2 (udp 17 18) (udp 19 21) in
  h !! 1%positive = Some (udp 17 18) /\ h !! 2%positive = Some (udp 19 21) /\
  Adjacent (udp 17 18) (udp 19 21) = true /\
  exists D' : PortRange,
    MergeWith 1%positive 2%positive h = Some (None, <[2%positive := D']> h) /\
    minPort D' = Z.min 17 19 /\ maxPort D' = Z.max 18 21 /\
    proto D' = ProtoUdp /\
    <[2%positive := D']> h !! 1%positive = Some (udp 17 18).
Proof.
  intros h. split; [reflexivity|]. split; [reflexivity|].
  split; [reflexivity|].
  apply (MergeWith_spec h 1%positive 2%positive (udp 17 18) (udp 19 21));
    [reflexivity | reflexivity | right; reflexivity].
Defined.

(** C4.  [P.EntirelyLessThan(O)] is true whenever [P.proto < O.proto];
    when [P.proto >= O.proto] it is false if the ranges overlap, and if
    they do not overlap it is true exactly when [P.maxPort < O.minPort]. *)
Theorem EntirelyLessThan_spec (P O : PortRange) :
  (proto P < proto O -> EntirelyLessThan P O = true) /\
  (proto P >= proto O ->
   (Overlaps P O = true -> EntirelyLessThan P O = false) /\
   (Overlaps P O = false ->
    (EntirelyLessThan P O = true <-> maxPort P < minPort O))).
Proof.
  unfold EntirelyLessThan. split.
  - intros Hlt. apply Z.ltb_lt in Hlt. now rewrite Hlt.
  - intros Hge. apply Z.ge_le, Z.ltb_ge in Hge. rewrite Hge.
    split; intros ->; [reflexivity|].
    destruct (Z.ltb_spec (maxPort P) (minPort O)); split;
      try reflexivity; try discriminate; intros; lia.
Qed.

(** C5.  [A.Overlaps(B)] is true exactly when the protocols are equal,
    [A.minPort] is not above [B.maxPort] and [B.minPort] is not above
    [A.maxPort]; ranges of different protocols never overlap. *)
Theorem Overlaps_spec (A B : PortRange) :
  (Overlaps A B = true <->
   proto A = proto B /\ ~ minPort A > maxPort B /\ ~ minPort B > maxPort A) /\
  (proto A <> proto B -> Overlaps A B = false).
Proof.
  split; [apply Overlaps_true_iff|].
  intros Hne. apply Overlaps_false_iff. now left.
Qed.

(** C8.  [Overlaps] and [Adjacent] are symmetric. *)
Theorem Overlaps_Adjacent_symmetric (A B : PortRange) :
  Overlaps A B = Overlaps B A /\ Adjacent A B = Adjacent B A.
Proof. split; [apply Overlaps_sym | apply Adjacent_sym]. Qed.

(** C9.  Both mutators keep the construction invariant: when [S] and [D]
    pass [Validate], a call of [S.Overlap(D)] or [S.MergeWith(D)] that
    returns [nil] leaves a [D] on which [Validate] returns [nil]; the
    intersection then has its lower bound at most its upper bound.  Such
    calls exist: [Overlap] returns [nil] when the ranges overlap and
    [MergeWith] when they overlap or are adjacent. *)
Theorem mutators_preserve_invariant (h : heap) (p o : loc) (S D : PortRange) :
  h !! p = Some S -> h !! o = Some D ->
  Validate S = None -> Validate D = None ->
  (forall h' : heap,
      Overlap p o h = Some (None, h') ->
      call1 Validate o h' = Some (None, h') /\
      Z.max (minPort S) (minPort D) <= Z.min (maxPort S) (maxPort D)) /\
  (forall h' : heap,
      MergeWith p o h = Some (None, h') ->
      call1 Validate o h' = Some (None, h')) /\
  (Overlaps S D = true -> exists h', Overlap p o h = Some (None, h')) /\
  (Overlaps S D = true \/ Adjacent S D = true ->
   exists h', MergeWith p o h = Some (None, h')).
Proof.
  intros Hp Ho HS HD.
  rewrite (Overlap_run h p o S D Hp Ho), (MergeWith_run h p o S D Hp Ho).
  apply Validate_nil_iff in HS, HD.
  split; [|split; [|split]].
  - intros h'. destruct (Overlaps S D) eqn:Hov; intros [= <-].
    apply Overlaps_true_iff in Hov. split; [|lia].
    erewrite call1_run by apply lookup_insert_eq. do 2 f_equal.
    apply Validate_nil_iff. unfold intersection; simpl. lia.
  - intros h'. destruct (Overlaps S D || Adjacent S D) eqn:Hm; intros [= <-].
    erewrite call1_run by apply lookup_insert_eq. do 2 f_equal.
    apply Validate_nil_iff. unfold union; simpl. lia.
  - intros ->. eauto.
  - intros Hm. apply orb_true_iff in Hm. rewrite Hm. eauto.
Qed.

Lemma mutators_preserve_invariant_witness :
  let h := heap2 (tcp 17 20) (tcp 18 21) in
  h !! 1%positive = Some (tcp 17 20) /\ h !! 2%positive = Some (tcp 18 21) /\
  Validate (tcp 17 20) = None /\ Validate (tcp 18 21) = None /\
  call1 Validate 2%positive (heap2 (tcp 17 20) (tcp 18 20))
  = Some (None, heap2 (tcp 17 20) (tcp 18 20)) /\
  call1 Validate 2%positive (heap2 (tcp 17 20) (tcp 17 21))
  = Some (None, heap2 (tcp 17 20) (tcp 17 21)).
Proof.
  intros h. do 4 (split; [reflexivity|]).
  destruct (mutators_preserve_invariant h 1%positive 2%positive
              (tcp 17 20) (tcp 18 21) eq_refl eq_refl eq_refl eq_refl)
    as (Hinter & Hunion & _).
  split.
  - apply (Hinter (heap2 (tcp 17 20) (tcp 18 20))). vm_compute. reflexivity.
  - apply (Hunion (heap2 (tcp 17 20) (tcp 17 21))). vm_compute. reflexivity.
Defined.

(** C10.  [EntirelyLessThan] is not asymmetric across protocols: the valid
    ranges [{100, 200, TCP}] and [{1, 5, UDP}] are each entirely less than
    the other. *)
Theorem EntirelyLessThan_not_asymmetric :
  exists P O : PortRange,
    Validate P = None /\ Validate O = None /\ proto P <> proto O /\
    EntirelyLessThan P O = true /\ EntirelyLessThan O P = true.
Proof.
  exists (tcp 100 200), (udp 1 5). repeat split. discriminate.
Qed.

Lemma wf_tcp (lo hi : Z) :
  is_uint16 lo -> is_uint16 hi -> wf_PortRange (tcp lo hi).
Proof.
  intros Hlo Hhi. unfold wf_PortRange, tcp, is_uint8, uint8_modulus, ProtoTcp.
  simpl. repeat split; try apply Hlo; try apply Hhi; lia.
Qed.

(** The wrap-around of [maxPort+1]: a range that ends at port 65535 is
    found adjacent to every range of its protocol that lies below it and
    starts at port 0. *)
Lemma Adjacent_wraps (A B : PortRange) :
  maxPort A = 65535 -> minPort B = 0 -> proto A = proto B ->
  maxPort B < minPort A ->
  Adjacent A B = true.
Proof.
  intros HA HB Hpr Hlt. unfold Adjacent.
  assert (Overlaps A B = false) as ->
      by (apply Overlaps_false_iff; right; left; lia).
  rewrite HA, HB, Hpr, Z.eqb_refl. reflexivity.
Qed.

(** C6.  [Adjacent] is not the exact "one apart" relation on all structs:
    [{65535, 65535, TCP}.Adjacent({0, 5, TCP})] is true, the two structs
    hold [uint16] ports, have one protocol and do not overlap, yet neither
    [65535 + 1 = 0] nor [5 + 1 = 65535] holds in the integers. *)
Theorem Adjacent_not_one_apart :
  let A := tcp 65535 65535 in
  let B := tcp 0 5 in
  wf_PortRange A /\ wf_PortRange B /\
  Adjacent A B = true /\
  ~ (proto A = proto B /\ Overlaps A B = false /\
     (maxPort A + 1 = minPort B \/ maxPort B + 1 = minPort A)).
Proof.
  intros A B.
  split; [apply wf_tcp; unfold is_uint16, uint16_modulus; lia|].
  split; [apply wf_tcp; unfold is_uint16, uint16_modulus; lia|].
  split; [reflexivity|].
  intros (_ & _ & H). simpl in H. lia.
Qed.

(** C7.  The successor comparison of [Adjacent] wraps around: for the
    range [{65535, 65535, TCP}], [maxPort+1] computed in [uint16] is [0],
    it equals the lower bound of [{0, 5, TCP}], and [Adjacent] reports the
    two as adjacent. *)
Theorem Adjacent_successor_of_65535_wraps :
  let A := tcp 65535 65535 in
  let B := tcp 0 5 in
  maxPort A = 65535 /\
  uint16_add (maxPort A) 1 = 0 /\
  (uint16_add (maxPort A) 1 =? minPort B) = true /\
  Adjacent A B = true.
Proof. simpl. repeat split. Qed.

(** * Further properties of the package *)

(** ** The predicates *)

(** A struct that passes [Validate] and holds [uint16] ports has its ports
    between 1 and 65535, in order. *)
Lemma valid_ports (A : PortRange) :
  wf_PortRange A -> Validate A = None ->
  1 <= minPort A <= maxPort A /\ maxPort A <= 65535.
Proof.
  intros (Hlo & Hhi & _) HA. apply Validate_nil_iff in HA.
  unfold is_uint16, uint16_modulus in *. lia.
Qed.

(** X1.  For ranges whose lower bound is not above their upper bound,
    [Overlaps] is true exactly when the protocols are equal and some port
    belongs to both ranges. *)
Theorem Overlaps_iff_common_port (A B : PortRange) :
  minPort A <= maxPort A -> minPort B <= maxPort B ->
  Overlaps A B = true <->
  proto A = proto B /\ exists x : Z, has_port A x /\ has_port B x.
Proof.
  intros HA HB. rewrite Overlaps_true_iff. unfold has_port. split.
  - intros (Hpr & H1 & H2). split; [exact Hpr|].
    exists (Z.max (minPort A) (minPort B)). lia.
  - intros (Hpr & x & H1 & H2). lia.
Qed.

Lemma Overlaps_iff_common_port_witness :
  16 <= 25 /\ 18 <= 27 /\
  (Overlaps (tcp 16 25) (tcp 18 27) = true <->
   ProtoTcp = ProtoTcp /\
   exists x : Z, has_port (tcp 16 25) x /\ has_port (tcp 18 27) x).
Proof.
  split; [lia|]. split; [lia|].
  apply (Overlaps_iff_common_port (tcp 16 25) (tcp 18 27)); simpl; lia.
Defined.

(** X2.  On structs that hold [uint16] ports, [Adjacent] is true exactly
    when the protocols are equal, the ranges do not overlap, and either
    one range starts one port above the end of the other or one ends at
    65535 and the other starts at 0. *)
Theorem Adjacent_uint16_iff (A B : PortRange) :
  wf_PortRange A -> wf_PortRange B ->
  Adjacent A B = true <->
  proto A = proto B /\ Overlaps A B = false /\
  (maxPort A + 1 = minPort B \/ maxPort B + 1 = minPort A \/
   (maxPort A = 65535 /\ minPort B = 0) \/
   (maxPort B = 65535 /\ minPort A = 0)).
Proof.
  intros (HA1 & HA2 & _) (HB1 & HB2 & _).
  unfold Adjacent. rewrite !uint16_add_1 by assumption.
  unfold is_uint16, uint16_modulus in *.
  destruct (Z.eqb_spec (maxPort A) 65535), (Z.eqb_spec (maxPort B) 65535);
    destruct (Overlaps A B); order_cases; split; intros ?;
    try discriminate; try reflexivity; try lia;
    intuition (try discriminate; lia).
Qed.

Lemma Adjacent_uint16_iff_witness :
  wf_PortRange (tcp 16 20) /\ wf_PortRange (tcp 21 26) /\
  Adjacent (tcp 16 20) (tcp 21 26) = true.
Proof.
  assert (H1 : wf_PortRange (tcp 16 20))
    by (apply wf_tcp; unfold is_uint16, uint16_modulus; lia).
  assert (H2 : wf_PortRange (tcp 21 26))
    by (apply wf_tcp; unfold is_uint16, uint16_modulus; lia).
  split; [exact H1|]. split; [exact H2|].
  apply (proj2 (Adjacent_uint16_iff (tcp 16 20) (tcp 21 26) H1 H2)).
  simpl. split; [reflexivity|]. split; [reflexivity|]. left. reflexivity.
Defined.

(** X3.  Between two structs that hold [uint16] ports and pass [Validate],
    [Adjacent] is true exactly when the protocols are equal and one range
    starts one port above the end of the other. *)
Theorem Adjacent_valid_iff (A B : PortRange) :
  wf_PortRange A -> wf_PortRange B ->
  Validate A = None -> Validate B = None ->
  Adjacent A B = true <->
  proto A = proto B /\
  (maxPort A + 1 = minPort B \/ maxPort B + 1 = minPort A).
Proof.
  intros HwA HwB HA HB.
  destruct (valid_ports A HwA HA) as (HA1 & HA2).
  destruct (valid_ports B HwB HB) as (HB1 & HB2).
  rewrite (Adjacent_exact_nonzero A B HwA HwB) by lia.
  rewrite Overlaps_false_iff. intuition lia.
Qed.

Lemma Adjacent_valid_iff_witness :
  wf_PortRange (tcp 17 17) /\ wf_PortRange (tcp 18 18) /\
  Validate (tcp 17 17) = None /\ Validate (tcp 18 18) = None /\
  Adjacent (tcp 17 17) (tcp 18 18) = true.
Proof.
  assert (H1 : wf_PortRange (tcp 17 17))
    by (apply wf_tcp; unfold is_uint16, uint16_modulus; lia).
  assert (H2 : wf_PortRange (tcp 18 18))
    by (apply wf_tcp; unfold is_uint16, uint16_modulus; lia).
  split; [exact H1|]. split; [exact H2|].
  split; [reflexivity|]. split; [reflexivity|].
  apply (proj2 (Adjacent_valid_iff (tcp 17 17) (tcp 18 18) H1 H2
                                   eq_refl eq_refl)).
  simpl. split; [reflexivity|]. left. reflexivity.
Defined.

(** ** The order *)

(** [EntirelyLessThan] between ranges of one protocol. *)
Lemma EntirelyLessThan_same_proto (A B : PortRange) :
  proto A = proto B ->
  EntirelyLessThan A B = true <->
  Overlaps A B = false /\ maxPort A < minPort B.
Proof.
  intros Hpr. unfold EntirelyLessThan. rewrite Hpr, Z.ltb_irrefl.
  destruct (Overlaps A B), (Z.ltb_spec (maxPort A) (minPort B));
    intuition (try discriminate; lia).
Qed.

(** [EntirelyLessThan] from the lower protocol number to the higher. *)
Lemma EntirelyLessThan_lower_proto (A B : PortRange) :
  proto A < proto B -> EntirelyLessThan A B = true.
Proof.
  intros Hpr. unfold EntirelyLessThan.
  now assert ((proto A <? proto B) = true) as -> by (apply Z.ltb_lt; lia).
Qed.

(** [EntirelyLessThan] from the higher protocol number to the lower. *)
Lemma EntirelyLessThan_higher_proto (A B : PortRange) :
  proto B < proto A ->
  EntirelyLessThan A B = true <-> maxPort A < minPort B.
Proof.
  intros Hpr. unfold EntirelyLessThan.
  assert ((proto A <? proto B) = false) as -> by (apply Z.ltb_ge; lia).
  assert (Overlaps A B = false) as ->
      by (apply Overlaps_false_iff; left; lia).
  destruct (Z.ltb_spec (maxPort A) (minPort B));
    intuition (try discriminate; lia).
Qed.

(** X4.  Two ranges of one protocol, each with its lower bound not above
    its upper bound, are in exactly one of three positions: the first is
    entirely less than the second, the second entirely less than the
    first, or they overlap. *)
Theorem EntirelyLessThan_trichotomy (A B : PortRange) :
  proto A = proto B ->
  minPort A <= maxPort A -> minPort B <= maxPort B ->
  (EntirelyLessThan A B = true \/ EntirelyLessThan B A = true \/
   Overlaps A B = true) /\
  ~ (EntirelyLessThan A B = true /\ EntirelyLessThan B A = true) /\
  ~ (EntirelyLessThan A B = true /\ Overlaps A B = true) /\
  ~ (EntirelyLessThan B A = true /\ Overlaps A B = true).
Proof.
  intros Hpr HA HB.
  rewrite (EntirelyLessThan_same_proto A B Hpr).
  rewrite (EntirelyLessThan_same_proto B A (eq_sym Hpr)).
  rewrite (Overlaps_sym B A).
  destruct (Overlaps A B) eqn:Hov.
  - intuition discriminate.
  - apply Overlaps_false_iff in Hov.
    repeat split; try (intros [? ?]; discriminate || lia).
    destruct Hov as [Hov | Hov]; [congruence|].
    destruct Hov; [right; left | left]; split; (reflexivity || lia).
Qed.

Lemma EntirelyLessThan_trichotomy_witness :
  ProtoTcp = ProtoTcp /\ 17 <= 21 /\ 24 <= 26 /\
  EntirelyLessThan (tcp 24 26) (tcp 17 21) = false.
Proof.
  split; [reflexivity|]. split; [lia|]. split; [lia|].
  destruct (EntirelyLessThan_trichotomy (tcp 17 21) (tcp 24 26) eq_refl)
    as (_ & Hnot & _); [simpl; lia | simpl; lia |].
  destruct (EntirelyLessThan (tcp 24 26) (tcp 17 21)) eqn:E; [|reflexivity].
  exfalso. apply Hnot. split; reflexivity.
Defined.

(** X5.  [EntirelyLessThan] is transitive along ranges whose protocol
    numbers do not decrease, when the middle range has its lower bound not
    above its upper bound. *)
Theorem EntirelyLessThan_transitive (A B C : PortRange) :
  proto A <= proto B -> proto B <= proto C ->
  minPort B <= maxPort B ->
  EntirelyLessThan A B = true -> EntirelyLessThan B C = true ->
  EntirelyLessThan A C = true.
Proof.
  intros HAB HBC HB H1 H2.
  destruct (Z.eq_dec (proto A) (proto B)) as [E1|N1];
    destruct (Z.eq_dec (proto B) (proto C)) as [E2|N2].
  - apply (EntirelyLessThan_same_proto A B E1) in H1.
    apply (EntirelyLessThan_same_proto B C E2) in H2.
    apply EntirelyLessThan_same_proto; [congruence|].
    split; [apply Overlaps_false_iff|]; lia.
  - apply EntirelyLessThan_lower_proto. lia.
  - apply EntirelyLessThan_lower_proto. lia.
  - apply EntirelyLessThan_lower_proto. lia.
Qed.

Lemma EntirelyLessThan_transitive_witness :
  ProtoTcp <= ProtoTcp /\ ProtoTcp <= ProtoUdp /\ 24 <= 26 /\
  EntirelyLessThan (tcp 17 21) (tcp 24 26) = true /\
  EntirelyLessThan (tcp 24 26) (udp 1 5) = true /\
  EntirelyLessThan (tcp 17 21) (udp 1 5) = true.
Proof.
  unfold ProtoTcp, ProtoUdp.
  split; [lia|]. split; [lia|]. split; [lia|].
  split; [reflexivity|]. split; [reflexivity|].
  apply (EntirelyLessThan_transitive (tcp 17 21) (tcp 24 26) (udp 1 5));
    simpl; unfold ProtoTcp, ProtoUdp; (lia || reflexivity).
Defined.

(** X6.  Two ranges, each with its lower bound not above its upper bound,
    are each entirely less than the other exactly when their protocols
    differ and all ports of the range with the higher protocol number are
    below all ports of the range with the lower one. *)
Theorem EntirelyLessThan_both_ways_iff (A B : PortRange) :
  minPort A <= maxPort A -> minPort B <= maxPort B ->
  EntirelyLessThan A B = true /\ EntirelyLessThan B A = true <->
  (proto A < proto B /\ maxPort B < minPort A) \/
  (proto B < proto A /\ maxPort A < minPort B).
Proof.
  intros HA HB.
  destruct (Z.lt_trichotomy (proto A) (proto B)) as [Hlt | [Heq | Hgt]].
  - rewrite (EntirelyLessThan_higher_proto B A Hlt).
    pose proof (EntirelyLessThan_lower_proto A B Hlt). intuition lia.
  - rewrite (EntirelyLessThan_same_proto A B Heq).
    rewrite (EntirelyLessThan_same_proto B A (eq_sym Heq)). intuition lia.
  - rewrite (EntirelyLessThan_higher_proto A B Hgt).
    pose proof (EntirelyLessThan_lower_proto B A Hgt). intuition lia.
Qed.

Lemma EntirelyLessThan_both_ways_iff_witness :
  17 <= 20 /\ 18 <= 21 /\
  ~ (EntirelyLessThan (tcp 17 20) (udp 18 21) = true /\
     EntirelyLessThan (udp 18 21) (tcp 17 20) = true).
Proof.
  split; [lia|]. split; [lia|]. intros Hboth.
  apply (EntirelyLessThan_both_ways_iff (tcp 17 20) (udp 18 21)) in Hboth;
    simpl; try lia.
  simpl in Hboth. unfold ProtoTcp, ProtoUdp in Hboth. lia.
Defined.

(** ** The mutators *)

Section MutatorFacts.

Variable h : heap.
Variables p o : loc.
Variables S D : PortRange.
Hypothesis Hp : h !! p = Some S.
Hypothesis Ho : h !! o = Some D.

Lemma Overlap_nil_iff (h' : heap) :
  Overlap p o h = Some (None, h') <->
  Overlaps S D = true /\ h' = <[o := intersection S D]> h.
Proof.
  rewrite (Overlap_run h p o S D Hp Ho).
  destruct (Overlaps S D); split;
    try (intros [= <-]; split; reflexivity);
    try (intros [_ ->]; reflexivity);
    intros [? _]; discriminate.
Qed.

Lemma MergeWith_nil_iff (h' : heap) :
  MergeWith p o h = Some (None, h') <->
  Overlaps S D || Adjacent S D = true /\ h' = <[o := union S D]> h.
Proof.
  rewrite (MergeWith_run h p o S D Hp Ho).
  destruct (Overlaps S D || Adjacent S D); split;
    try (intros [= <-]; split; reflexivity);
    try (intros [_ ->]; reflexivity);
    intros [? _]; discriminate.
Qed.

Lemma mergeable_same_proto :
  Overlaps S D || Adjacent S D = true -> proto S = proto D.
Proof.
  intros [H | H]%orb_true_iff.
  - now apply Overlaps_true_iff in H.
  - now apply Adjacent_same_proto in H.
Qed.

(** The receiver reads as before once the argument holds the intersection
    or the union, also when both are one struct. *)
Lemma receiver_after_intersection :
  <[o := intersection S D]> h !! p = Some S.
Proof.
  destruct (decide (o = p)) as [E|Hne].
  - rewrite E, lookup_insert_eq. f_equal.
    assert (S = D) as <- by (rewrite E in Ho; congruence).
    apply intersection_self.
  - now rewrite lookup_insert_ne.
Qed.

Lemma receiver_after_union :
  <[o := union S D]> h !! p = Some S.
Proof.
  destruct (decide (o = p)) as [E|Hne].
  - rewrite E, lookup_insert_eq. f_equal.
    assert (S = D) as <- by (rewrite E in Ho; congruence).
    apply union_self.
  - now rewrite lookup_insert_ne.
Qed.

End MutatorFacts.

(** X7.  When the ranges overlap, [S.Overlap(D)] returns [nil] and leaves
    in [D] a range whose ports are exactly the ports that [S] and [D] had
    in common. *)
Theorem Overlap_common_ports (h : heap) (p o : loc) (S D : PortRange) :
  h !! p = Some S -> h !! o = Some D ->
  Overlaps S D = true ->
  exists (h' : heap) (D' : PortRange),
    Overlap p o h = Some (None, h') /\
    h' !! o = Some D' /\
    forall x : Z, has_port D' x <-> has_port S x /\ has_port D x.
Proof.
  intros Hp Ho Hov.
  exists (<[o := intersection S D]> h), (intersection S D).
  split; [now apply (Overlap_nil_iff h p o S D Hp Ho)|].
  split; [apply lookup_insert_eq|].
  intros x. unfold has_port, intersection; simpl. lia.
Qed.

Lemma Overlap_common_ports_witness :
  let h := heap2 (tcp 17 20) (tcp 18 21) in
  h !! 1%positive = Some (tcp 17 20) /\ h !! 2%positive = Some (tcp 18 21) /\
  Overlaps (tcp 17 20) (tcp 18 21) = true /\
  exists (h' : heap) (D' : PortRange),
    Overlap 1%positive 2%positive h = Some (None, h') /\
    h' !! 2%positive = Some D' /\
    forall x : Z,
      has_port D' x <-> has_port (tcp 17 20) x /\ has_port (tcp 18 21) x.
Proof.
  intros h. do 3 (split; [reflexivity|]).
  apply (Overlap_common_ports h 1%positive 2%positive (tcp 17 20) (tcp 18 21));
    reflexivity.
Defined.

(** X8.  When the ranges overlap or are adjacent, [S.MergeWith(D)] returns
    [nil] and leaves in [D] a range that has every port of [S] and every
    port of [D]; when moreover both structs hold [uint16] ports and have a
    non-zero lower bound, it has no other port. *)
Theorem MergeWith_all_ports (h : heap) (p o : loc) (S D : PortRange) :
  h !! p = Some S -> h !! o = Some D ->
  Overlaps S D = true \/ Adjacent S D = true ->
  exists (h' : heap) (D' : PortRange),
    MergeWith p o h = Some (None, h') /\
    h' !! o = Some D' /\
    (forall x : Z, has_port S x \/ has_port D x -> has_port D' x) /\
    (wf_PortRange S -> wf_PortRange D ->
     minPort S <> 0 -> minPort D <> 0 ->
     forall x : Z, has_port D' x -> has_port S x \/ has_port D x).
Proof.
  intros Hp Ho Hm.
  exists (<[o := union S D]> h), (union S D).
  split.
  { apply (MergeWith_nil_iff h p o S D Hp Ho). split; [|reflexivity].
    now apply orb_true_iff. }
  split; [apply lookup_insert_eq|].
  unfold has_port, union; simpl. split; [intros x; lia|].
  intros HwS HwD HS0 HD0 x.
  destruct Hm as [Hov | Hadj].
  - apply Overlaps_true_iff in Hov. lia.
  - apply (Adjacent_exact_nonzero S D HwS HwD HS0 HD0) in Hadj. lia.
Qed.

Lemma MergeWith_all_ports_witness :
  let h := heap2 (udp 17 18) (udp 19 21) in
  h !! 1%positive = Some (udp 17 18) /\ h !! 2%positive = Some (udp 19 21) /\
  Adjacent (udp 17 18) (udp 19 21) = true /\
  exists (h' : heap) (D' : PortRange),
    MergeWith 1%positive 2%positive h = Some (None, h') /\
    h' !! 2%positive = Some D' /\
    (forall x : Z,
        has_port (udp 17 18) x \/ has_port (udp 19 21) x -> has_port D' x) /\
    (wf_PortRange (udp 17 18) -> wf_PortRange (udp 19 21) ->
     17 <> 0 -> 19 <> 0 ->
     forall x : Z,
       has_port D' x -> has_port (udp 17 18) x \/ has_port (udp 19 21) x).
Proof.
  intros h. do 3 (split; [reflexivity|]).
  apply (MergeWith_all_ports h 1%positive 2%positive (udp 17 18) (udp 19 21));
    [reflexivity | reflexivity | right; reflexivity].
Defined.

(** The struct the receiver and the argument of a successful call read as
    afterwards. *)
Lemma intersection_fixed (S D : PortRange) :
  minPort S <= maxPort S -> Overlaps S D = true ->
  Overlaps S (intersection S D) = true /\
  intersection S (intersection S D) = intersection S D /\
  union S (intersection S D) = mkPortRange (minPort S) (maxPort S) (proto D).
Proof.
  intros HS Hov. apply Overlaps_true_iff in Hov.
  split; [apply Overlaps_true_iff; unfold intersection; simpl; lia|].
  unfold intersection, union; simpl. split; f_equal; lia.
Qed.

Lemma union_fixed (S D : PortRange) :
  minPort S <= maxPort S ->
  proto S = proto D ->
  Overlaps S (union S D) = true /\
  union S (union S D) = union S D /\
  intersection S (union S D) = mkPortRange (minPort S) (maxPort S) (proto D).
Proof.
  intros HS Hpr.
  split; [apply Overlaps_true_iff; unfold union; simpl; lia|].
  unfold intersection, union; simpl. split; f_equal; lia.
Qed.

(** X9.  A second [S.Overlap(D)] after one that returned [nil] returns
    [nil] again and changes nothing, and so does a second [S.MergeWith(D)],
    when the lower bound of [S] is not above its upper bound. *)
Theorem mutators_idempotent (h : heap) (p o : loc) (S D : PortRange) :
  h !! p = Some S -> h !! o = Some D ->
  minPort S <= maxPort S ->
  (forall h' : heap,
      Overlap p o h = Some (None, h') -> Overlap p o h' = Some (None, h')) /\
  (forall h' : heap,
      MergeWith p o h = Some (None, h') ->
      MergeWith p o h' = Some (None, h')).
Proof.
  intros Hp Ho HS. split; intros h' Hcall.
  - apply (Overlap_nil_iff h p o S D Hp Ho) in Hcall as [Hov ->].
    destruct (intersection_fixed S D HS Hov) as (Hov' & Hfix & _).
    apply (Overlap_nil_iff _ p o S (intersection S D)
             (receiver_after_intersection h p o S D Hp Ho)
             (lookup_insert_eq _ _ _)).
    split; [exact Hov'|]. now rewrite Hfix, insert_insert_eq.
  - apply (MergeWith_nil_iff h p o S D Hp Ho) in Hcall as [Hm ->].
    destruct (union_fixed S D HS (mergeable_same_proto S D Hm))
      as (Hov' & Hfix & _).
    apply (MergeWith_nil_iff _ p o S (union S D)
             (receiver_after_union h p o S D Hp Ho)
             (lookup_insert_eq _ _ _)).
    split; [now rewrite Hov'|]. now rewrite Hfix, insert_insert_eq.
Qed.

Lemma mutators_idempotent_witness :
  let h := heap2 (tcp 17 20) (tcp 18 21) in
  h !! 1%positive = Some (tcp 17 20) /\ h !! 2%positive = Some (tcp 18 21) /\
  17 <= 20 /\
  Overlap 1%positive 2%positive (heap2 (tcp 17 20) (tcp 18 20))
  = Some (None, heap2 (tcp 17 20) (tcp 18 20)) /\
  MergeWith 1%positive 2%positive (heap2 (tcp 17 20) (tcp 17 21))
  = Some (None, heap2 (tcp 17 20) (tcp 17 21)).
Proof.
  intros h. do 2 (split; [reflexivity|]). split; [lia|].
  destruct (mutators_idempotent h 1%positive 2%positive
              (tcp 17 20) (tcp 18 21) eq_refl eq_refl)
    as (Hinter & Hunion); [simpl; lia|].
  split.
  - apply Hinter. vm_compute. reflexivity.
  - apply Hunion. vm_compute. reflexivity.
Defined.

(** X10.  Absorption: when the lower bound of [S] is not above its upper
    bound, [S.Overlap(D)] after a [S.MergeWith(D)] that returned [nil], and
    [S.MergeWith(D)] after a [S.Overlap(D)] that returned [nil], return
    [nil] and leave in [D] a copy of [S]. *)
Theorem mutators_absorb (h : heap) (p o : loc) (S D : PortRange) :
  h !! p = Some S -> h !! o = Some D ->
  minPort S <= maxPort S ->
  (forall h1 : heap,
      MergeWith p o h = Some (None, h1) ->
      Overlap p o h1 = Some (None, <[o := S]> h)) /\
  (forall h1 : heap,
      Overlap p o h = Some (None, h1) ->
      MergeWith p o h1 = Some (None, <[o := S]> h)).
Proof.
  intros Hp Ho HS. split; intros h1 Hcall.
  - apply (MergeWith_nil_iff h p o S D Hp Ho) in Hcall as [Hm ->].
    pose proof (mergeable_same_proto S D Hm) as Hpr.
    destruct (union_fixed S D HS Hpr) as (Hov' & _ & Habs).
    apply (Overlap_nil_iff _ p o S (union S D)
             (receiver_after_union h p o S D Hp Ho)
             (lookup_insert_eq _ _ _)).
    split; [exact Hov'|]. rewrite Habs, insert_insert_eq, <- Hpr.
    now destruct S.
  - apply (Overlap_nil_iff h p o S D Hp Ho) in Hcall as [Hov ->].
    assert (Hpr : proto S = proto D) by now apply Overlaps_true_iff in Hov.
    destruct (intersection_fixed S D HS Hov) as (Hov' & _ & Habs).
    apply (MergeWith_nil_iff _ p o S (intersection S D)
             (receiver_after_intersection h p o S D Hp Ho)
             (lookup_insert_eq _ _ _)).
    split; [now rewrite Hov'|]. rewrite Habs, insert_insert_eq, <- Hpr.
    now destruct S.
Qed.

Lemma mutators_absorb_witness :
  let h := heap2 (tcp 17 20) (tcp 18 21) in
  h !! 1%positive = Some (tcp 17 20) /\ h !! 2%positive = Some (tcp 18 21) /\
  17 <= 20 /\
  Overlap 1%positive 2%positive (heap2 (tcp 17 20) (tcp 17 21))
  = Some (None, <[2%positive := tcp 17 20]> h) /\
  MergeWith 1%positive 2%positive (heap2 (tcp 17 20) (tcp 18 20))
  = Some (None, <[2%positive := tcp 17 20]> h).
Proof.
  intros h. do 2 (split; [reflexivity|]). split; [lia|].
  destruct (mutators_absorb h 1%positive 2%positive
              (tcp 17 20) (tcp 18 21) eq_refl eq_refl)
    as (Hmerge & Hinter); [simpl; lia|].
  split.
  - apply Hmerge. vm_compute. reflexivity.
  - apply Hinter. vm_compute. reflexivity.
Defined.

(** X11.  Which of the two structs is the argument does not matter for the
    range that results: when [S.Overlap(D)] returns [nil], so does
    [D.Overlap(S)], and it leaves in [S] the struct that the first leaves
    in [D]; the same holds of [MergeWith]. *)
Theorem mutators_commute (h : heap) (p o : loc) (S D : PortRange) :
  h !! p = Some S -> h !! o = Some D ->
  (forall h1 : heap,
      Overlap p o h = Some (None, h1) ->
      exists h2 : heap,
        Overlap o p h = Some (None, h2) /\ h2 !! p = h1 !! o) /\
  (forall h1 : heap,
      MergeWith p o h = Some (None, h1) ->
      exists h2 : heap,
        MergeWith o p h = Some (None, h2) /\ h2 !! p = h1 !! o).
Proof.
  intros Hp Ho. split; intros h1 Hcall.
  - apply (Overlap_nil_iff h p o S D Hp Ho) in Hcall as [Hov ->].
    exists (<[p := intersection D S]> h). split.
    + apply (Overlap_nil_iff h o p D S Ho Hp).
      split; [now rewrite Overlaps_sym|reflexivity].
    + rewrite !lookup_insert_eq. f_equal.
      apply Overlaps_true_iff in Hov as [Hpr _].
      unfold intersection. rewrite Hpr. f_equal; lia.
  - apply (MergeWith_nil_iff h p o S D Hp Ho) in Hcall as [Hm ->].
    exists (<[p := union D S]> h). split.
    + apply (MergeWith_nil_iff h o p D S Ho Hp).
      split; [now rewrite Overlaps_sym, Adjacent_sym|reflexivity].
    + rewrite !lookup_insert_eq. f_equal.
      unfold union. rewrite (mergeable_same_proto S D Hm). f_equal; lia.
Qed.

Lemma mutators_commute_witness :
  let h := heap2 (tcp 17 20) (tcp 18 21) in
  h !! 1%positive = Some (tcp 17 20) /\ h !! 2%positive = Some (tcp 18 21) /\
  (exists h2 : heap,
      Overlap 2%positive 1%positive h = Some (None, h2) /\
      h2 !! 1%positive = Some (tcp 18 20)) /\
  (exists h2 : heap,
      MergeWith 2%positive 1%positive h = Some (None, h2) /\
      h2 !! 1%positive = Some (tcp 17 21)).
Proof.
  intros h. do 2 (split; [reflexivity|]).
  destruct (mutators_commute h 1%positive 2%positive
              (tcp 17 20) (tcp 18 21) eq_refl eq_refl)
    as (Hinter & Hunion).
  split.
  - apply (Hinter (heap2 (tcp 17 20) (tcp 18 20))). vm_compute. reflexivity.
  - apply (Hunion (heap2 (tcp 17 20) (tcp 17 21))). vm_compute. reflexivity.
Defined.

(** X12.  [Overlap] and [MergeWith] panic exactly when one of their two
    pointers refers to no struct; on two structs they always return. *)
Theorem mutators_panic_iff (h : heap) (p o : loc) :
  (Overlap p o h = None <-> h !! p = None \/ h !! o = None) /\
  (MergeWith p o h = None <-> h !! p = None \/ h !! o = None).
Proof.
  destruct (h !! p) as [S|] eqn:Hp; [destruct (h !! o) as [D|] eqn:Ho|].
  - rewrite (Overlap_run h p o S D Hp Ho), (MergeWith_run h p o S D Hp Ho).
    destruct (Overlaps S D), (Adjacent S D); simpl;
      split; split; try discriminate; intros [?|?]; discriminate.
  - assert (Overlap p o h = None) as ->
        by (unfold Overlap, call2, bind, deref; now rewrite Hp, Ho).
    assert (MergeWith p o h = None) as ->
        by (unfold MergeWith, call2, bind, deref; now rewrite Hp, Ho).
    tauto.
  - assert (Overlap p o h = None) as ->
        by (unfold Overlap, call2, bind, deref; now rewrite Hp).
    assert (MergeWith p o h = None) as ->
        by (unfold MergeWith, call2, bind, deref; now rewrite Hp).
    tauto.
Qed.

(** X13.  Adjacent ranges can be merged but not intersected: on them
    [Overlap] returns [ErrDisjointRanges] with the heap as it was and
    [MergeWith] returns [nil]; and whenever [Overlap] returns [nil] so does
    [MergeWith]. *)
Theorem Overlap_versus_MergeWith (h : heap) (p o : loc) (S D : PortRange) :
  h !! p = Some S -> h !! o = Some D ->
  (Adjacent S D = true ->
   Overlap p o h = Some (Some ErrDisjointRanges, h) /\
   exists h' : heap, MergeWith p o h = Some (None, h')) /\
  (forall h1 : heap,
      Overlap p o h = Some (None, h1) ->
      exists h' : heap, MergeWith p o h = Some (None, h')).
Proof.
  intros Hp Ho.
  rewrite (Overlap_run h p o S D Hp Ho), (MergeWith_run h p o S D Hp Ho).
  split.
  - intros Hadj. rewrite (Adjacent_not_Overlaps S D Hadj), Hadj. simpl. eauto.
  - intros h1. destruct (Overlaps S D); [simpl; eauto | discriminate].
Qed.

Lemma Overlap_versus_MergeWith_witness :
  let h := heap2 (udp 17 18) (udp 19 21) in
  h !! 1%positive = Some (udp 17 18) /\ h !! 2%positive = Some (udp 19 21) /\
  Adjacent (udp 17 18) (udp 19 21) = true /\
  Overlap 1%positive 2%positive h = Some (Some ErrDisjointRanges, h) /\
  exists h' : heap, MergeWith 1%positive 2%positive h = Some (None, h').
Proof.
  intros h. do 3 (split; [reflexivity|]).
  apply (Overlap_versus_MergeWith h 1%positive 2%positive
           (udp 17 18) (udp 19 21) eq_refl eq_refl).
  reflexivity.
Defined.

(** ** Clients *)

Lemma heap_valid_insert (h : heap) (o : loc) (v : PortRange) :
  heap_valid h -> Validate v = None -> heap_valid (<[o := v]> h).
Proof.
  intros Hh Hv l w. destruct (decide (o = l)) as [->|Hne].
  - rewrite lookup_insert_eq. now intros [= <-].
  - rewrite lookup_insert_ne by exact Hne. apply Hh.
Qed.

Lemma intersection_valid (S D : PortRange) :
  Validate S = None -> Validate D = None -> Overlaps S D = true ->
  Validate (intersection S D) = None.
Proof.
  intros HS HD Hov.
  apply Validate_nil_iff in HS, HD. apply Overlaps_true_iff in Hov.
  apply Validate_nil_iff. unfold intersection; simpl. lia.
Qed.

Lemma union_valid (S D : PortRange) :
  Validate S = None -> Validate D = None ->
  Validate (union S D) = None.
Proof.
  intros HS HD. apply Validate_nil_iff in HS, HD.
  apply Validate_nil_iff. unfold union; simpl. lia.
Qed.

Lemma allocated_dom (h h' : heap) (c : call) :
  dom h' = dom h -> allocated h c -> allocated h' c.
Proof.
  intros Hdom. destruct c as [p o | p o]; simpl;
    rewrite <- !elem_of_dom, Hdom; trivial.
Qed.

(** One call on a heap of valid ranges. *)
Lemma do_call_valid (h : heap) (c : call) :
  heap_valid h -> allocated h c ->
  exists (e : error) (h' : heap),
    do_call c h = Some (e, h') /\ heap_valid h' /\ dom h' = dom h.
Proof.
  intros Hh Hc.
  destruct c as [p o | p o]; destruct Hc as [[S Hp] [D Ho]]; simpl.
  - rewrite (Overlap_run h p o S D Hp Ho).
    destruct (Overlaps S D) eqn:Hov; [|now eauto].
    eexists _, _. split; [reflexivity|]. split.
    + apply heap_valid_insert; [exact Hh|].
      apply intersection_valid; eauto.
    + apply dom_insert_lookup_L. eauto.
  - rewrite (MergeWith_run h p o S D Hp Ho).
    destruct (Overlaps S D || Adjacent S D); [|now eauto].
    eexists _, _. split; [reflexivity|]. split.
    + apply heap_valid_insert; [exact Hh|]. apply union_valid; eauto.
    + apply dom_insert_lookup_L. eauto.
Qed.

(** X14.  On a heap in which every struct passes [Validate], a client that
    makes any sequence of [Overlap] and [MergeWith] calls on pointers to
    structs of that heap never panics, gets one error value per call, and
    ends with a heap that has the same structs allocated, every one of
    which still passes [Validate]. *)
Theorem do_calls_keep_heap_valid (cs : list call) (h : heap) :
  heap_valid h -> Forall (allocated h) cs ->
  exists (es : list error) (h' : heap),
    do_calls cs h = Some (es, h') /\
    length es = length cs /\
    heap_valid h' /\ dom h' = dom h.
Proof.
  revert h. induction cs as [|c cs IH]; intros h Hh Hcs.
  - exists [], h. repeat split. exact Hh.
  - apply Forall_cons in Hcs as [Hc Hcs].
    destruct (do_call_valid h c Hh Hc) as (e & h1 & Hrun & Hh1 & Hdom1).
    assert (Hcs1 : Forall (allocated h1) cs).
    { eapply Forall_impl; [exact Hcs|].
      intros c' Hc'. now apply (allocated_dom h h1). }
    destruct (IH h1 Hh1 Hcs1) as (es & h' & Hrest & Hlen & Hh' & Hdom').
    exists (e :: es), h'. split.
    + simpl. unfold bind at 1. rewrite Hrun.
      unfold bind at 1. rewrite Hrest. reflexivity.
    + split; [simpl; now rewrite Hlen|].
      split; [exact Hh'|]. now rewrite Hdom'.
Qed.

Lemma do_calls_keep_heap_valid_witness :
  let h := heap2 (tcp 17 20) (tcp 18 21) in
  let cs := [CallOverlap 1%positive 2%positive;
             CallMergeWith 2%positive 1%positive;
             CallOverlap 1%positive 1%positive] in
  heap_valid h /\ Forall (allocated h) cs /\
  exists (es : list error) (h' : heap),
    do_calls cs h = Some (es, h') /\
    length es = 3%nat /\ heap_valid h' /\ dom h' = dom h.
Proof.
  intros h cs.
  assert (Hh : heap_valid h).
  { intros l v. unfold h, heap2.
    destruct (decide (l = 2%positive)) as [->|N2];
      [rewrite lookup_insert_eq; now intros [= <-]|].
    rewrite lookup_insert_ne by congruence.
    destruct (decide (l = 1%positive)) as [->|N1];
      [rewrite lookup_insert_eq; now intros [= <-]|].
    rewrite lookup_insert_ne by congruence.
    rewrite lookup_empty. discriminate. }
  assert (Hcs : Forall (allocated h) cs).
  { repeat constructor; simpl; eexists; reflexivity. }
  split; [exact Hh|]. split; [exact Hcs|].
  exact (do_calls_keep_heap_valid cs h Hh Hcs).
Defined.

(** X15.  For two ranges of one protocol that hold [uint16] ports and pass
    [Validate], the first entirely less than the second: [Overlap] returns
    [ErrDisjointRanges]; [MergeWith] returns [nil] and leaves the range
    from the lower bound of the first to the upper bound of the second
    when the second starts one port above the end of the first, and
    returns [ErrDisjointRanges] with the heap as it was when it does not. *)
Theorem mutators_on_ordered_ranges (h : heap) (p o : loc) (S D : PortRange) :
  h !! p = Some S -> h !! o = Some D ->
  wf_PortRange S -> wf_PortRange D ->
  Validate S = None -> Validate D = None ->
  proto S = proto D -> EntirelyLessThan S D = true ->
  Overlap p o h = Some (Some ErrDisjointRanges, h) /\
  (maxPort S + 1 = minPort D ->
   MergeWith p o h
   = Some (None, <[o := mkPortRange (minPort S) (maxPort D) (proto D)]> h)) /\
  (maxPort S + 1 <> minPort D ->
   MergeWith p o h = Some (Some ErrDisjointRanges, h)).
Proof.
  intros Hp Ho HwS HwD HS HD Hpr Hlt.
  apply (EntirelyLessThan_same_proto S D Hpr) in Hlt as [Hov Hlt].
  destruct (valid_ports S HwS HS) as (HS1 & HS2).
  destruct (valid_ports D HwD HD) as (HD1 & HD2).
  pose proof (Adjacent_exact_nonzero S D HwS HwD) as Hadj.
  rewrite (Overlap_run h p o S D Hp Ho), (MergeWith_run h p o S D Hp Ho), Hov.
  split; [reflexivity|]. simpl. split; intros Hone.
  - assert (Adjacent S D = true) as -> by (apply Hadj; intuition lia).
    do 3 f_equal. unfold union. f_equal; lia.
  - destruct (Adjacent S D); [|reflexivity].
    exfalso. assert (true = true) as Ht by reflexivity.
    apply Hadj in Ht; intuition lia.
Qed.

Lemma mutators_on_ordered_ranges_witness :
  let h := heap2 (udp 17 18) (udp 19 21) in
  h !! 1%positive = Some (udp 17 18) /\ h !! 2%positive = Some (udp 19 21) /\
  Validate (udp 17 18) = None /\ Validate (udp 19 21) = None /\
  EntirelyLessThan (udp 17 18) (udp 19 21) = true /\
  MergeWith 1%positive 2%positive h
  = Some (None, <[2%positive := udp 17 21]> h).
Proof.
  intros h. do 5 (split; [reflexivity|]).
  assert (Hwf : forall lo hi, 0 <= lo < 65536 -> 0 <= hi < 65536 ->
                              wf_PortRange (udp lo hi)).
  { intros lo hi Hlo Hhi.
    unfold wf_PortRange, is_uint16, is_uint8, uint16_modulus, uint8_modulus.
    simpl. unfold ProtoUdp. lia. }
  apply (mutators_on_ordered_ranges h 1%positive 2%positive
           (udp 17 18) (udp 19 21) eq_refl eq_refl
           (Hwf 17 18 ltac:(lia) ltac:(lia)) (Hwf 19 21 ltac:(lia) ltac:(lia))
           eq_refl eq_refl eq_refl eq_refl).
  reflexivity.
Defined.
